(** * OpenFermion-Cirq: the variational-ansatz base class and the
      Bogoliubov-transform test harness

    The development embeds
    - [openfermioncirq/variational/ansatz.py]: the abstract base class
      [VariationalAnsatz] with its constructor and its two overridable
      defaults, and
    - [openfermioncirq/primitives/bogoliubov_transform_test.py]: the
      basis-state convention and the parametrisation of the tests that
      exercise [bogoliubov_transform].

    Python dictionaries are finite maps ([gmap]) built by successive
    insertion, so that a later item with an equal key overrides an earlier
    one; one-dimensional arrays are lists; Python exceptions are the
    [Raise] branch of [result]. *)

From Stdlib Require Import ZArith QArith Lqa.
From stdpp Require Import base option list strings gmap.

Open Scope nat_scope.

(** ** Exceptions and results of a Python call *)

Inductive exn : Type :=
  | AttributeError (attr : string)
  | KeyError (key : string)
  | ValueError
  | StopIteration.

Inductive result (A : Type) : Type :=
  | Ok (a : A)
  | Raise (e : exn).
Arguments Ok {A} a.
Arguments Raise {A} e.

#[global] Instance result_ret : MRet result := fun A a => Ok a.
#[global] Instance result_bind : MBind result := fun A B f m =>
  match m with
  | Ok a => f a
  | Raise e => Raise e
  end.

(** ** Builtins used by [ansatz.py] *)

(** [dict(items)] and the dict comprehension: items are inserted from left
    to right into an empty dictionary. *)
Definition dict_put {V : Type} (d : gmap string V) (kv : string * V)
  : gmap string V := <[kv.1 := kv.2]> d.

Definition dict {V : Type} (items : list (string * V)) : gmap string V :=
  foldl dict_put ∅ items.

(** [numpy.zeros(n)] for a one-dimensional array over scalars [R]. *)
Definition numpy_zeros {R : Type} (zero : R) (n : nat) : list R :=
  replicate n zero.

(** [cirq.Symbol(name)]. *)
Record Symbol : Type := mkSymbol { symbol_name : string }.

(** [cirq.ParamResolver(param_dict)]. *)
Record ParamResolver (R : Type) : Type :=
  mkParamResolver { param_dict : gmap string R }.
Arguments mkParamResolver {R} param_dict.
Arguments param_dict {R} p.

(** ** [class VariationalAnsatz] *)

(** An instance: the attributes a subclass defines for itself ([attrs],
    for example [qubits]) and the two attributes the base constructor
    assigns.  An attribute that was not assigned yet is [None]; reading it
    raises [AttributeError]. *)
Record Self (A Circuit : Type) : Type := mkSelf {
  attrs : A;
  params : option (gmap string Symbol);
  circuit : option Circuit
}.
Arguments mkSelf {A Circuit} attrs params circuit.
Arguments attrs {A Circuit} s.
Arguments params {A Circuit} s.
Arguments circuit {A Circuit} s.

(** The two abstract methods, with the signatures the source annotates.
    [param_names] reads the attributes of the subclass, which the base
    class never assigns; [generate_circuit] reads the whole instance (its
    docstring directs it to [self.qubits] and [self.params]), returns the
    circuit, and may raise. *)
Class VariationalAnsatz (A Circuit : Type) : Type := {
  param_names : A -> list string;
  generate_circuit : Self A Circuit -> result Circuit
}.

Section Ansatz.
Context {A Circuit : Type} `{!VariationalAnsatz A Circuit}.
Context {R : Type} (zero : R).

(** [self.params = {param_name: cirq.Symbol(param_name)
                    for param_name in self.param_names()}] *)
Definition assign_params (self : Self A Circuit) : Self A Circuit :=
  mkSelf (attrs self)
         (Some (dict ((fun param_name => (param_name, mkSymbol param_name))
                        <$> param_names (attrs self))))
         (circuit self).

(** [self.circuit = self.generate_circuit()] *)
Definition assign_circuit (self : Self A Circuit) : result (Self A Circuit) :=
  c ← generate_circuit self;
  mret (mkSelf (attrs self) (params self) (Some c)).

Definition __init__ (self : Self A Circuit) : result (Self A Circuit) :=
  let self := assign_params self in
  assign_circuit self.

Definition param_bounds (self : Self A Circuit) : option (list (R * R)) :=
  None.

(** [cirq.ParamResolver(dict(zip(self.param_names(), param_values)))] *)
Definition param_resolver (self : Self A Circuit) (param_values : list R)
  : result (ParamResolver R) :=
  mret (mkParamResolver (dict (zip (param_names (attrs self)) param_values))).

(** [numpy.zeros(len(self.params))] *)
Definition default_initial_params (self : Self A Circuit) : result (list R) :=
  match params self with
  | Some d => mret (numpy_zeros zero (size d))
  | None => Raise (AttributeError "params")
  end.
End Ansatz.

(** The property of [param_resolver] on arrays of any length: the
    resolver binds [min (len names) (len values)] names; the name at
    position [i] is bound to the value at position [i], and is unbound
    when the array has no position [i]; values beyond the last name play
    no role. *)
Definition binds_by_position {R : Type}
    (names : list string) (values : list R) (resolver : gmap string R) : Prop :=
  size resolver = min (length names) (length values)
  /\ (forall (i : nat) (name : string),
        names !! i = Some name -> resolver !! name = values !! i)
  /\ resolver = dict (zip names (take (length names) values)).

(** A concrete subclass: its one attribute is the list of names that
    [param_names] returns, and [generate_circuit] looks every Symbol up in
    [self.params] (a missing key raises [KeyError]); the circuit is the
    list of the Symbols it uses. *)
Definition lookup_symbols (d : gmap string Symbol) (names : list string)
  : result (list Symbol) :=
  foldr (fun name acc =>
           match d !! name with
           | Some s => syms ← acc; mret (s :: syms)
           | None => Raise (KeyError name)
           end) (mret []) names.

#[global] Instance NamedAnsatz : VariationalAnsatz (list string) (list Symbol) := {
  param_names names := names;
  generate_circuit self :=
    match params self with
    | Some d => lookup_symbols d (attrs self)
    | None => Raise (AttributeError "params")
    end
}.

(** [param_resolver] on one instance and one array of values: the call
    returns, and its dictionary binds by position. *)
Definition param_resolver_binds_by_position
    {A Circuit : Type} `{!VariationalAnsatz A Circuit} {R : Type}
    (self : Self A Circuit) (values : list R) : Prop :=
  exists r : ParamResolver R,
    param_resolver self values = Ok r
    /\ binds_by_position (param_names (attrs self)) values (param_dict r).

(** What the constructor leaves behind for [NamedAnsatz]. *)
Definition constructed (names : list string) : Self (list string) (list Symbol) :=
  mkSelf names
         (Some (dict ((fun param_name => (param_name, mkSymbol param_name)) <$> names)))
         (Some (mkSymbol <$> names)).

Definition theta_names : list string := ["theta_0"; "theta_1"; "theta_2"]%string.
Definition repeated_names : list string := ["a"; "a"; "b"]%string.

(** * [bogoliubov_transform_test.py] *)

(** ** Arrays, qubits and basis states *)

(** A numpy array: its shape and its elements in row-major order. *)
Record ndarray (T : Type) : Type := mkArray { shape : list nat; data : list T }.
Arguments mkArray {T} shape data.
Arguments shape {T} n.
Arguments data {T} n.

(** [numpy.zeros(shape)]. *)
Definition numpy_zeros_nd {T : Type} (zero : T) (shp : list nat) : ndarray T :=
  mkArray shp (replicate (foldr Nat.mul 1 shp) zero).

(** [cirq.LineQubit(x)] and [LineQubit.range(n)]. *)
Record LineQubit : Type := mkLineQubit { x : Z }.

Definition LineQubit_range (n : nat) : list LineQubit :=
  (fun i => mkLineQubit (Z.of_nat i)) <$> seq 0 n.

(** The [initial_state] argument: a Python int, or a [Container] of mode
    indices. *)
Inductive initial_state : Type :=
  | BasisInt (state : Z)
  | OccupiedModes (modes : list Z).

(** [a << k]; a negative shift count raises [ValueError]. *)
Definition lshift (a k : Z) : result Z :=
  if (k <? 0)%Z then Raise ValueError else mret (Z.shiftl a k).

(** Lines 53-54 of the test:
    [if isinstance(initial_state, Container):
         initial_state = sum(1 << (n_qubits - 1 - i) for i in initial_state)] *)
Definition basis_state_int (n_qubits : nat) (st : initial_state) : result Z :=
  match st with
  | BasisInt state => mret state
  | OccupiedModes modes =>
      foldl (fun total i =>
               s ← total;
               t ← lshift 1 (Z.of_nat n_qubits - 1 - i);
               mret (s + t)%Z)
            (mret 0%Z) modes
  end.

(** ** Exact scalars for the three-mode Fourier test

    The literals of the test live in the field generated over the
    rationals by [w = exp(2j*pi/3)] and [sqrt(3)].  An element is
    [(a + b*w) + (c + d*w)*sqrt(3)] with [w*w = -1 - w]. *)
Record Eis : Type := mkEis { ea : Q; eb : Q }.
Record K : Type := mkK { kx : Eis; ky : Eis }.

(** Results are kept in lowest terms. *)
Definition Ered (a b : Q) : Eis := mkEis (Qred a) (Qred b).

Definition Eadd (u v : Eis) : Eis := Ered (ea u + ea v) (eb u + eb v).
Definition Eopp (u : Eis) : Eis := Ered (- ea u) (- eb u).
Definition Emul (u v : Eis) : Eis :=
  Ered (ea u * ea v - eb u * eb v)
       (ea u * eb v + eb u * ea v - eb u * eb v).
Definition Econj (u : Eis) : Eis := Ered (ea u - eb u) (- eb u).
Definition Escale (q : Q) (u : Eis) : Eis := Ered (q * ea u) (q * eb u).
Definition Einv (u : Eis) : Eis :=
  Escale (/ (ea u * ea u - ea u * eb u + eb u * eb u)) (Econj u).
Definition Eeq (u v : Eis) : Prop := (ea u == ea v /\ eb u == eb v)%Q.

Definition Kadd (u v : K) : K := mkK (Eadd (kx u) (kx v)) (Eadd (ky u) (ky v)).
Definition Kopp (u : K) : K := mkK (Eopp (kx u)) (Eopp (ky u)).
Definition Ksub (u v : K) : K := Kadd u (Kopp v).
Definition Kmul (u v : K) : K :=
  mkK (Eadd (Emul (kx u) (kx v)) (Escale 3 (Emul (ky u) (ky v))))
      (Eadd (Emul (kx u) (ky v)) (Emul (ky u) (kx v))).
Definition Kconj (u : K) : K := mkK (Econj (kx u)) (Econj (ky u)).
Definition Kinv (u : K) : K :=
  let d := Einv (Eadd (Emul (kx u) (kx u)) (Eopp (Escale 3 (Emul (ky u) (ky u))))) in
  mkK (Emul (kx u) d) (Eopp (Emul (ky u) d)).
Definition Kdiv (u v : K) : K := Kmul u (Kinv v).
Definition Keq (u v : K) : Prop := Eeq (kx u) (kx v) /\ Eeq (ky u) (ky v).

Definition K_of_Z (z : Z) : K := mkK (mkEis (inject_Z z) 0) (mkEis 0 0).
Definition K0 : K := K_of_Z 0.
Definition K1 : K := K_of_Z 1.

Fixpoint Kpow (u : K) (e : nat) : K :=
  match e with
  | O => K1
  | S e' => Kmul u (Kpow u e')
  end.

(** [numpy.exp(2j * numpy.pi / 3)] and [numpy.sqrt(3)]. *)
Definition exp_2j_pi_over_3 : K := mkK (mkEis 0 1) (mkEis 0 0).
Definition sqrt_3 : K := mkK (mkEis 0 0) (mkEis 1 0).

(** ** The test's matrices and literal vectors *)

(** [fourier_transform_matrix(n_modes)]; the two numpy values it computes
    from [n_modes] are arguments. *)
Definition fourier_transform_matrix
    (root_of_unity sqrt_n_modes : K) (n_modes : nat) : ndarray K :=
  mkArray [n_modes; n_modes]
    (j ← seq 0 n_modes; k ← seq 0 n_modes;
     [Kdiv (Kpow root_of_unity (j * k)) sqrt_n_modes]).

Definition fourier_transform_matrix_3 : ndarray K :=
  fourier_transform_matrix exp_2j_pi_over_3 sqrt_3 3.

(** [numpy.array([0, 1, 1, 0, 1, 0, 0, 0]) / numpy.sqrt(3)] *)
Definition correct_state_1 : list K :=
  (fun z => Kdiv (K_of_Z z) sqrt_3) <$> [0; 1; 1; 0; 1; 0; 0; 0]%Z.

(** [numpy.array([0, 0, 0, exp(2j*pi/3) - 1, 0, 1 - exp(2j*pi/3),
                  exp(2j*pi/3) - 1, 0]) / 3] *)
Definition correct_state_2 : list K :=
  (fun u => Kdiv u (K_of_Z 3))
    <$> [K0; K0; K0; Ksub exp_2j_pi_over_3 K1; K0; Ksub K1 exp_2j_pi_over_3;
         Ksub exp_2j_pi_over_3 K1; K0].

(** The parametrisation of [test_bogoliubov_transform_fourier_transform]:
    [(transformation_matrix, initial_state, correct_state)]. *)
Definition fourier_transform_cases
  : list (ndarray K * initial_state * list K) :=
  [ (fourier_transform_matrix_3, BasisInt 4, correct_state_1);
    (fourier_transform_matrix_3, OccupiedModes [1; 2]%Z, correct_state_2) ].

(** ** The transform as the spec describes it *)

(** Modelled from the spec: the occupation encoding of section 3, which
    the simulator (not in the sources) realises.  A state of [n] qubits is
    the list of its [2 ^ n] amplitudes; index [y] is the basis state with
    the bits of [y], most significant bit first, so that mode [i] is
    occupied when bit [n - 1 - i] is set. *)
Definition mode_occupied (n : nat) (y : Z) (i : nat) : bool :=
  Z.testbit y (Z.of_nat (n - 1 - i)).

(** Modelled from the spec: the state with no mode occupied, index 0. *)
Definition vacuum (n : nat) : list K := K1 :: replicate (2 ^ n - 1) K0.

(** Modelled from the spec: the sign of the Jordan-Wigner-style encoding
    of section 2, one factor [-1] for every occupied mode before mode
    [k]. *)
Definition parity_before (n : nat) (y : Z) (k : nat) : K :=
  if Nat.even (length (filter (fun i => mode_occupied n y i = true) (seq 0 k)))
  then K1 else Kopp K1.

(** Modelled from the spec: the creation operator of mode [k] applied to
    [psi]; it fills mode [k] where it is empty. *)
Definition create (n k : nat) (psi : list K) : list K :=
  (fun y =>
     if mode_occupied n (Z.of_nat y) k
     then Kmul (parity_before n (Z.of_nat y) k)
               (default K0 (psi !! (y - 2 ^ (n - 1 - k))))
     else K0) <$> seq 0 (2 ^ n).

(** [m[j, k]] of a two-dimensional array. *)
Definition entry (m : ndarray K) (j k : nat) : K :=
  default K0 (data m !! (j * default 0 (shape m !! 1) + k)).

(** Modelled from the spec: the new creation operator of mode [j], row
    [j] of the transformation matrix applied to the creation operators of
    the original modes (section 4.1). *)
Definition transformed_create (m : ndarray K) (n j : nat) (psi : list K) : list K :=
  foldr (fun k acc => zip_with Kadd (Kmul (entry m j k) <$> create n k psi) acc)
        (replicate (2 ^ n) K0) (seq 0 n).

(** Modelled from the spec: [bogoliubov_transform] and the simulator are
    missing from the sources.  By sections 2 and 4.1 of the spec the
    circuit maps the mode operators to the new operators defined by the
    rows of the transformation matrix, and the specialised circuit agrees
    with the general one on its initial state; the simulated final state
    from the basis state [initial] is therefore the vacuum with the new
    creation operator applied for every occupied mode.  Only the [n] by
    [n] shape is covered. *)
Definition ideal_final_state (m : ndarray K) (n : nat) (initial : Z) : list K :=
  foldr (fun j psi =>
           if mode_occupied n initial j then transformed_create m n j psi else psi)
        (vacuum n) (seq 0 n).

(** Modelled from the spec: [assert_allclose_up_to_global_phase] belongs
    to cirq.  Equality up to global phase, as the glossary has it: the
    two vectors differ by a scalar of modulus one.  (A phase that relates
    two vectors over [K], the first not zero, is itself in [K].)  The
    comparison is exact; it implies the assertion of the test for every
    tolerance. *)
Definition equal_up_to_global_phase (actual desired : list K) : Prop :=
  exists phase : K,
    Keq (Kmul phase (Kconj phase)) K1
    /\ Forall2 (fun a d => Keq (Kmul phase a) d) actual desired.

(** The body of [test_bogoliubov_transform_fourier_transform] for one
    case: the basis state the simulation starts from, and the assertion
    on the final state.  [ideal_final_state] stands for the circuit of
    [bogoliubov_transform] and its simulation. *)
Definition test_bogoliubov_transform_fourier_transform
    (case : ndarray K * initial_state * list K) : result Prop :=
  let '(transformation_matrix, initial_state, correct_state) := case in
  let n_qubits := default 0 (shape transformation_matrix !! 0) in
  initial ← basis_state_int n_qubits initial_state;
  mret (equal_up_to_global_phase
          (ideal_final_state transformation_matrix n_qubits initial)
          correct_state).

(** ** Shape validation *)

Section Synthesizer.
Context {T Gate : Type}.

(** The elimination network that turns a well-shaped matrix into gates;
    the spec leaves it open (section 9). *)
Variable network : list LineQubit -> ndarray T -> option initial_state -> list Gate.

(** Modelled from the spec: the sequence [bogoliubov_transform] produces
    (section 5).  Nothing has run yet ([Unstarted]), or the gates that
    remain to be pulled. *)
Inductive gate_sequence : Type :=
  | Unstarted (qubits : list LineQubit) (m : ndarray T) (st : option initial_state)
  | Remaining (gates : list Gate).

(** Modelled from the spec: the shape check of section 4.1; the test
    expects [ValueError]. *)
Definition check_shape (qubits : list LineQubit) (m : ndarray T) : result unit :=
  let n := length qubits in
  if decide (shape m = [n; n] \/ shape m = [n; 2 * n])
  then mret tt else Raise ValueError.

(** Modelled from the spec: [bogoliubov_transform] is missing from the
    sources.  Section 4.1: the matrix must have shape [(n, n)] or
    [(n, 2n)], any other shape fails with a shape error before any gate is
    produced; sections 5 and 9: the sequence may be produced lazily, with
    the validation no later than the first pull ([lazy = true]), or the
    call validates and computes the whole list ([lazy = false]). *)
Definition bogoliubov_transform (lazy : bool)
    (qubits : list LineQubit) (m : ndarray T) (st : option initial_state)
  : result gate_sequence :=
  if lazy then mret (Unstarted qubits m st)
  else (_ ← check_shape qubits m; mret (Remaining (network qubits m st))).

(** Modelled from the spec: [next(sequence)] on the produced sequence.
    The first pull of a lazy sequence runs the validation; an exhausted
    sequence raises [StopIteration]. *)
Definition next (s : gate_sequence) : result (Gate * gate_sequence) :=
  let pull gates :=
    match gates with
    | g :: rest => mret (g, Remaining rest)
    | [] => Raise StopIteration
    end in
  match s with
  | Unstarted qubits m st =>
      _ ← check_shape qubits m; pull (network qubits m st)
  | Remaining gates => pull gates
  end.

(** The body of [test_bogoliubov_transform_bad_shape_raises_error]:
    [next(bogoliubov_transform(qubits, m))]. *)
Definition first_pull (lazy : bool) (qubits : list LineQubit) (m : ndarray T)
    (st : option initial_state) : result (Gate * gate_sequence) :=
  s ← bogoliubov_transform lazy qubits m st; next s.
End Synthesizer.

(** A network for running the sequence: one gate per qubit, labelled by
    the qubit. *)
Definition one_gate_per_qubit
  : list LineQubit -> ndarray Z -> option initial_state -> list LineQubit :=
  fun qubits _ _ => qubits.

(** ** The Fourier claim and a checker for phases *)

(** A case passes when the body of the test reaches its assertion and the
    assertion holds. *)
Definition case_passes (case : ndarray K * initial_state * list K) : Prop :=
  exists P : Prop, test_bogoliubov_transform_fourier_transform case = Ok P /\ P.

(** The claim about the three-mode Fourier matrix, with the two sets of
    occupied modes as parameters. *)
Definition fourier_transform_claim (occupied_1 occupied_2 : list Z) : Prop :=
  case_passes (fourier_transform_matrix_3, OccupiedModes occupied_1, correct_state_1)
  /\ case_passes (fourier_transform_matrix_3, OccupiedModes occupied_2, correct_state_2).

(** [numpy.vdot(actual, desired)]. *)
Definition vdot (actual desired : list K) : K :=
  foldr Kadd K0 (zip_with (fun a d => Kmul (Kconj a) d) actual desired).

Definition Eeqb (u v : Eis) : bool :=
  Qeq_bool (ea u) (ea v) && Qeq_bool (eb u) (eb v).
Definition Keqb (u v : K) : bool := Eeqb (kx u) (kx v) && Eeqb (ky u) (ky v).

Fixpoint related_by_phase (phase : K) (actual desired : list K) : bool :=
  match actual, desired with
  | [], [] => true
  | a :: actual', d :: desired' =>
      Keqb (Kmul phase a) d && related_by_phase phase actual' desired'
  | _, _ => false
  end.

(** * Further code of the two files *)

(** The value of [sum(1 << (n_qubits - 1 - i) for i in modes)] when no
    shift raises. *)
Definition shift_total (n_qubits : nat) (modes : list Z) : Z :=
  foldr (fun i acc => (2 ^ (Z.of_nat n_qubits - 1 - i) + acc)%Z) 0%Z modes.

(** ** The daggered transformation matrix (lines 163-169 of the test) *)

(** A two-dimensional numpy array, as
    [quad_ham.diagonalizing_bogoliubov_transform()] returns one: the
    numbers of its rows and columns and its elements in row-major order. *)
Record array2d (T : Type) : Type :=
  mkArray2d { n_rows : nat; n_cols : nat; cells : list T }.
Arguments mkArray2d {T} n_rows n_cols cells.
Arguments n_rows {T} a.
Arguments n_cols {T} a.
Arguments cells {T} a.

(** The buffer holds one element for every position. *)
Definition well_formed {T : Type} (m : array2d T) : Prop :=
  length (cells m) = n_rows m * n_cols m.

(** [m[i, j]], [None] outside the array. *)
Definition cell {T : Type} (m : array2d T) (i j : nat) : option T :=
  if decide (j < n_cols m) then cells m !! (i * n_cols m + j) else None.

(** The array with [r] rows and [c] columns that holds [g i j] at
    position [(i, j)]. *)
Definition tabulate2d {T : Type} (r c : nat) (g : nat -> nat -> option T)
  : array2d T :=
  mkArray2d r c (i ← seq 0 r; j ← seq 0 c; option_list (g i j)).

Section NumpyOps.
Context {T : Type} (conj : T -> T).

(** [m.T] *)
Definition transpose (m : array2d T) : array2d T :=
  tabulate2d (n_cols m) (n_rows m) (fun i j => cell m j i).

(** [m.conj()] *)
Definition conj_array (m : array2d T) : array2d T :=
  mkArray2d (n_rows m) (n_cols m) (conj <$> cells m).

(** [m[:, :n]]: the slice stops at the last column. *)
Definition columns_before (n : nat) (m : array2d T) : array2d T :=
  tabulate2d (n_rows m) (min n (n_cols m)) (fun i j => cell m i j).

(** [m[:, n:]]: the slice is empty when [n] is past the last column. *)
Definition columns_from (n : nat) (m : array2d T) : array2d T :=
  tabulate2d (n_rows m) (n_cols m - n) (fun i j => cell m i (n + j)).

(** [numpy.block([a, b])]: [a] and [b] side by side; arrays with
    different numbers of rows raise [ValueError]. *)
Definition block_row (a b : array2d T) : result (array2d T) :=
  if decide (n_rows a = n_rows b)
  then mret (tabulate2d (n_rows a) (n_cols a + n_cols b)
               (fun i j => if decide (j < n_cols a) then cell a i j
                           else cell b i (j - n_cols a)))
  else Raise ValueError.

(** [if transformation_matrix.shape == (n_qubits, n_qubits):
         daggered_transformation_matrix = transformation_matrix.T.conj()
     else:
         left_block = transformation_matrix[:, :n_qubits]
         right_block = transformation_matrix[:, n_qubits:]
         daggered_transformation_matrix = numpy.block(
             [left_block.T.conj(), right_block.T])] *)
Definition daggered_transformation_matrix (n_qubits : nat) (m : array2d T)
  : result (array2d T) :=
  if decide (n_rows m = n_qubits /\ n_cols m = n_qubits)
  then mret (conj_array (transpose m))
  else
    let left_block := columns_before n_qubits m in
    let right_block := columns_from n_qubits m in
    block_row (conj_array (transpose left_block)) (transpose right_block).
End NumpyOps.

(** Complex numbers with integer parts, and a matrix of shape [(2, 4)]
    over them. *)
Definition gauss_conj (z : Z * Z) : Z * Z := (z.1, (- z.2)%Z).

Definition wide_example : array2d (Z * Z) :=
  mkArray2d 2 4 [(1, 2); (3, -4); (5, 0); (0, 6);
                 (-7, 8); (9, 1); (2, -3); (4, 5)]%Z.

(** * Properties of the builtins *)

Section DictFacts.
Context {V : Type}.
Implicit Types (items : list (string * V)) (acc : gmap string V).

Lemma foldl_put_lookup_other items acc (k : string) :
  k ∉ items.*1 -> foldl dict_put acc items !! k = acc !! k.
Proof.
  revert acc. induction items as [|[k' v] items IH]; intros acc Hk; [done|].
  cbn in Hk. apply not_elem_of_cons in Hk as [Hne Hk].
  cbn. rewrite IH by done. by rewrite lookup_insert_ne.
Qed.

Lemma foldl_put_size items acc :
  NoDup items.*1 ->
  (forall k, k ∈ items.*1 -> acc !! k = None) ->
  size (foldl dict_put acc items) = size acc + length items.
Proof.
  revert acc. induction items as [|[k v] items IH]; intros acc Hnd Hfresh.
  - cbn. lia.
  - cbn in Hnd. apply NoDup_cons in Hnd as [Hk Hnd].
    cbn. rewrite IH; [| done |].
    + rewrite map_size_insert_None; [lia|]. apply Hfresh. cbn. left.
    + intros k' Hk'. rewrite lookup_insert_ne.
      * apply Hfresh. cbn. by right.
      * intros ->. done.
Qed.

Lemma dict_size items :
  NoDup items.*1 -> size (dict items) = length items.
Proof.
  intros Hnd. unfold dict. rewrite foldl_put_size; [| done |].
  - by rewrite map_size_empty.
  - intros k _. apply lookup_empty.
Qed.

Lemma foldl_put_zip_lookup (names : list string) (values : list V) acc
    (i : nat) (name : string) :
  NoDup names -> names !! i = Some name ->
  foldl dict_put acc (zip names values) !! name
  = match values !! i with Some v => Some v | None => acc !! name end.
Proof.
  revert values acc i.
  induction names as [|n names IH]; intros values acc i Hnd Hi; [done|].
  apply NoDup_cons in Hnd as [Hn Hnd].
  destruct values as [|v values]; [done|].
  destruct i as [|i]; cbn in Hi |- *.
  - injection Hi as ->. rewrite foldl_put_lookup_other.
    + by rewrite lookup_insert_eq.
    + intros Hin. apply Hn. apply list_elem_of_fmap in Hin as [[k w] [-> Hin]].
      by apply elem_of_zip_l in Hin.
  - rewrite (IH values _ i) by done.
    destruct (values !! i); [done|].
    rewrite lookup_insert_ne; [done|].
    intros ->. apply Hn. by eapply list_elem_of_lookup_2.
Qed.

Lemma zip_take_length (names : list string) (values : list V) :
  zip names (take (length names) values) = zip names values.
Proof.
  revert values. induction names as [|n names IH]; intros [|v values]; cbn; try done.
  by rewrite IH.
Qed.
End DictFacts.

(** The dict comprehension of the constructor binds exactly the names of
    the list, each to the Symbol that carries it. *)
Lemma comprehension_lookup (names : list string) (k : string) :
  dict ((fun param_name => (param_name, mkSymbol param_name)) <$> names) !! k
  = if decide (k ∈ names) then Some (mkSymbol k) else None.
Proof.
  unfold dict.
  assert (forall acc : gmap string Symbol,
    foldl dict_put acc
      ((fun param_name => (param_name, mkSymbol param_name)) <$> names) !! k
    = if decide (k ∈ names) then Some (mkSymbol k) else acc !! k) as Hgen.
  { induction names as [|n names IH]; intros acc.
    - cbn. by rewrite decide_False by apply not_elem_of_nil.
    - cbn. rewrite IH. destruct (decide (k ∈ names)) as [Hin|Hnin].
      + rewrite decide_True; [done|]. by right.
      + destruct (decide (k = n)) as [->|Hne].
        * rewrite decide_True by left. by rewrite lookup_insert_eq.
        * rewrite decide_False; [by rewrite lookup_insert_ne|].
          intros [?|?]%elem_of_cons; done. }
  rewrite Hgen. case_decide; [done|]. apply lookup_empty.
Qed.

Lemma zip_fst_NoDup {V : Type} (names : list string) (values : list V) :
  NoDup names -> NoDup (zip names values).*1.
Proof.
  revert values. induction names as [|n names IH]; intros [|v values] Hnd;
    cbn; try apply NoDup_nil_2.
  apply NoDup_cons in Hnd as [Hn Hnd]. apply NoDup_cons. split; [|by apply IH].
  intros Hin. apply Hn. apply list_elem_of_fmap in Hin as [[k w] [-> Hin]].
  by apply elem_of_zip_l in Hin.
Qed.

Lemma lookup_symbols_bound (d : gmap string Symbol) (names : list string) :
  (forall name, name ∈ names -> d !! name = Some (mkSymbol name)) ->
  lookup_symbols d names = Ok (mkSymbol <$> names).
Proof.
  induction names as [|n names IH]; intros Hd; [done|].
  cbn. rewrite (Hd n) by left.
  fold (lookup_symbols d names). rewrite IH; [done|].
  intros name Hin. apply Hd. by right.
Qed.

(** * The constructor and the defaults of [VariationalAnsatz] *)

(** C8.  The constructor first assigns [params], a dictionary that holds
    the Symbol of every name returned by [param_names] and nothing else,
    and then calls [generate_circuit] on the instance that already holds
    this dictionary; the circuit it stores (or the exception it raises) is
    the outcome of that call. *)
Theorem init_params_before_generate_circuit
    {A Circuit : Type} `{!VariationalAnsatz A Circuit} (self : Self A Circuit) :
  exists d : gmap string Symbol,
    params (assign_params self) = Some d
    /\ (forall name, name ∈ param_names (attrs self) ->
          d !! name = Some (mkSymbol name))
    /\ (forall name s, d !! name = Some s ->
          name ∈ param_names (attrs self) /\ s = mkSymbol name)
    /\ __init__ self
       = (c ← generate_circuit (assign_params self);
          mret (mkSelf (attrs self) (Some d) (Some c))).
Proof.
  eexists. split; [reflexivity|]. split; [|split].
  - intros name Hin. rewrite comprehension_lookup. by rewrite decide_True.
  - intros name s. rewrite comprehension_lookup.
    case_decide; [|done]. intros [= <-]. done.
  - reflexivity.
Qed.

(** For the subclass that reads every Symbol from [self.params]:
    [generate_circuit] raises on an instance whose [params] was not
    assigned, and the constructor succeeds for every list of names. *)
Lemma named_ansatz_generate_before_params (names : list string) :
  generate_circuit (mkSelf names None None) = Raise (AttributeError "params").
Proof. reflexivity. Qed.

Lemma named_ansatz_init (names : list string) :
  __init__ (mkSelf names None None) = Ok (constructed names).
Proof.
  unfold __init__, assign_circuit, assign_params.
  cbn [generate_circuit NamedAnsatz params attrs circuit param_names].
  rewrite lookup_symbols_bound; [done|].
  intros name Hin. rewrite comprehension_lookup. by rewrite decide_True.
Qed.

(** C9.  On a constructed instance whose parameter names are unique,
    [default_initial_params] returns zeros, as many as [param_names]
    returns names, and [param_resolver] binds the name at each position to
    the value at the same position of the array. *)
Theorem defaults_of_unique_names
    {A Circuit : Type} `{!VariationalAnsatz A Circuit} {R : Type} (zero : R)
    (self self' : Self A Circuit) (values : list R) :
  NoDup (param_names (attrs self)) ->
  __init__ self = Ok self' ->
  default_initial_params zero self'
    = Ok (replicate (length (param_names (attrs self'))) zero)
  /\ exists r : ParamResolver R,
       param_resolver self' values = Ok r
       /\ forall (i : nat) (name : string),
            param_names (attrs self') !! i = Some name ->
            param_dict r !! name = values !! i.
Proof.
  intros Hnd Hinit. unfold __init__, assign_circuit in Hinit. cbn in Hinit.
  destruct (generate_circuit (assign_params self)) as [c|e]; [|done].
  cbn in Hinit. injection Hinit as <-. cbn. split.
  - unfold default_initial_params. cbn. unfold numpy_zeros. do 2 f_equal.
    rewrite dict_size.
    + by rewrite length_fmap.
    + rewrite <- list_fmap_compose. by rewrite list_fmap_id.
  - eexists. split; [reflexivity|]. intros i name Hi. cbn. unfold dict.
    rewrite (foldl_put_zip_lookup _ _ _ i) by done.
    rewrite lookup_empty. by destruct (values !! i).
Qed.

(** C10, amended.  For unique parameter names, [param_resolver] returns
    for an array of any length: it binds [min (len names) (len values)]
    names by position, leaves the names past the end of the array unbound
    and ignores the values past the last name. *)
Theorem param_resolver_any_length
    {A Circuit : Type} `{!VariationalAnsatz A Circuit} {R : Type}
    (self : Self A Circuit) (values : list R) :
  NoDup (param_names (attrs self)) ->
  param_resolver_binds_by_position self values.
Proof.
  intros Hnd. eexists. split; [reflexivity|]. cbn. repeat split.
  - rewrite dict_size by by apply zip_fst_NoDup.
    apply length_zip_with.
  - intros i name Hi. unfold dict.
    rewrite (foldl_put_zip_lookup _ _ _ i) by done.
    rewrite lookup_empty. by destruct (values !! i).
  - by rewrite zip_take_length.
Qed.

(** What holds for every subclass, unique names or not: the call
    returns, and the dictionary is built from the first
    [min (len names) (len values)] pairs of names and values. *)
Lemma param_resolver_pairs
    {A Circuit : Type} `{!VariationalAnsatz A Circuit} {R : Type}
    (self : Self A Circuit) (values : list R) :
  let names := param_names (attrs self) in
  let n := min (length names) (length values) in
  length (zip names values) = n
  /\ param_resolver self values
     = Ok (mkParamResolver (dict (zip (take n names) (take n values)))).
Proof.
  cbn. split; [apply length_zip_with|]. unfold param_resolver. cbn. do 3 f_equal.
  generalize (param_names (attrs self)) as names. intros names. revert values.
  induction names as [|n names IH]; intros [|v values]; cbn; try done.
  by rewrite <- IH.
Qed.

(** Without unique names the zero vector is shorter than the list of
    names. *)
Lemma repeated_names_zeros :
  default_initial_params 0%Z (constructed repeated_names) = Ok [0; 0]%Z
  /\ length (param_names (attrs (constructed repeated_names))) = 3.
Proof. split; [by vm_compute|reflexivity]. Qed.

(** [defaults_of_unique_names] on the instance with three angles. *)
Lemma defaults_of_unique_names_witness :
  NoDup (param_names (attrs (mkSelf (Circuit := list Symbol) theta_names None None)))
  /\ __init__ (mkSelf theta_names None None) = Ok (constructed theta_names)
  /\ (default_initial_params 0%Z (constructed theta_names)
        = Ok (replicate (length (param_names (attrs (constructed theta_names)))) 0%Z)
      /\ exists r : ParamResolver Z,
           param_resolver (constructed theta_names) [5; 6; 7]%Z = Ok r
           /\ forall (i : nat) (name : string),
                param_names (attrs (constructed theta_names)) !! i = Some name ->
                param_dict r !! name = [5; 6; 7]%Z !! i).
Proof.
  assert (Hnd : NoDup (param_names
                  (attrs (mkSelf (Circuit := list Symbol) theta_names None None)))).
  { apply (bool_decide_unpack _). vm_compute. exact I. }
  assert (Hinit : __init__ (mkSelf theta_names None None)
                   = Ok (constructed theta_names)) by (vm_compute; reflexivity).
  split; [exact Hnd|]. split; [exact Hinit|].
  exact (defaults_of_unique_names 0%Z _ _ [5; 6; 7]%Z Hnd Hinit).
Defined.

(** [param_resolver_any_length] with three names and two values. *)
Lemma param_resolver_any_length_witness :
  NoDup (param_names (attrs (constructed theta_names)))
  /\ param_resolver_binds_by_position (constructed theta_names) [5; 6]%Z.
Proof.
  assert (Hnd : NoDup (param_names (attrs (constructed theta_names)))).
  { apply (bool_decide_unpack _). vm_compute. exact I. }
  split; [exact Hnd|].
  exact (param_resolver_any_length (constructed theta_names) [5; 6]%Z Hnd).
Defined.

(** C10 as stated fails for a subclass that returns a name twice: for the
    names [a, a, b] and the values [1, 2] the constructed instance binds
    one name, [a] to [2], and not [min 3 2 = 2] names. *)
Lemma param_resolver_repeated_name_counterexample :
  __init__ (mkSelf repeated_names None None) = Ok (constructed repeated_names)
  /\ ~ param_resolver_binds_by_position (constructed repeated_names) [1; 2]%Z.
Proof.
  split; [apply named_ansatz_init|].
  intros (r & Hr & Hsize & _). injection Hr as <-.
  vm_compute in Hsize. discriminate Hsize.
Qed.

(** * Shape validation of the synthesizer *)

Lemma check_shape_bad {T : Type} (qubits : list LineQubit) (m : ndarray T) :
  shape m <> [length qubits; length qubits] ->
  shape m <> [length qubits; 2 * length qubits] ->
  check_shape qubits m = Raise ValueError.
Proof.
  intros Hsq Hwide. unfold check_shape.
  rewrite decide_False; [done|]. by intros [?|?].
Qed.

(** C5.  For a matrix whose shape is neither [(n, n)] nor [(n, 2n)], [n]
    the number of qubits, the first attempt to obtain a gate raises
    [ValueError], whether the sequence is produced lazily or not; and the
    call never returns a sequence that holds gates. *)
Theorem bad_shape_raises_on_first_pull {T Gate : Type}
    (network : list LineQubit -> ndarray T -> option initial_state -> list Gate)
    (lazy : bool) (qubits : list LineQubit) (m : ndarray T)
    (st : option initial_state) :
  shape m <> [length qubits; length qubits] ->
  shape m <> [length qubits; 2 * length qubits] ->
  first_pull network lazy qubits m st = Raise ValueError
  /\ forall gates : list Gate,
       bogoliubov_transform network lazy qubits m st <> Ok (Remaining gates).
Proof.
  intros Hsq Hwide. pose proof (check_shape_bad qubits m Hsq Hwide) as Hcheck.
  unfold first_pull, bogoliubov_transform. destruct lazy; cbn.
  - unfold next. rewrite Hcheck. split; [done|]. intros gates. discriminate.
  - rewrite Hcheck. cbn. split; [done|]. intros gates. discriminate.
Qed.

(** The case of the test: four qubits and [numpy.zeros((4, 7))]. *)
Lemma bad_shape_raises_on_first_pull_witness :
  shape (numpy_zeros_nd 0%Z [4; 7])
    <> [length (LineQubit_range 4); length (LineQubit_range 4)]
  /\ shape (numpy_zeros_nd 0%Z [4; 7])
       <> [length (LineQubit_range 4); 2 * length (LineQubit_range 4)]
  /\ (first_pull one_gate_per_qubit true (LineQubit_range 4)
        (numpy_zeros_nd 0%Z [4; 7]) None = Raise ValueError
      /\ forall gates : list LineQubit,
           bogoliubov_transform one_gate_per_qubit true (LineQubit_range 4)
             (numpy_zeros_nd 0%Z [4; 7]) None <> Ok (Remaining gates)).
Proof.
  assert (H1 : shape (numpy_zeros_nd 0%Z [4; 7])
                 <> [length (LineQubit_range 4); length (LineQubit_range 4)])
    by (vm_compute; discriminate).
  assert (H2 : shape (numpy_zeros_nd 0%Z [4; 7])
                 <> [length (LineQubit_range 4); 2 * length (LineQubit_range 4)])
    by (vm_compute; discriminate).
  split; [exact H1|]. split; [exact H2|].
  exact (bad_shape_raises_on_first_pull one_gate_per_qubit true
           (LineQubit_range 4) (numpy_zeros_nd 0%Z [4; 7]) None H1 H2).
Defined.

(** With a well-shaped matrix the same first pull yields a gate. *)
Lemma good_shape_first_pull (lazy : bool) :
  first_pull one_gate_per_qubit lazy (LineQubit_range 4)
    (numpy_zeros_nd 0%Z [4; 8]) None
  = Ok (mkLineQubit 0, Remaining [mkLineQubit 1; mkLineQubit 2; mkLineQubit 3]).
Proof. by destruct lazy. Qed.

(** * The three-mode Fourier test *)

Lemma Keqb_Keq (u v : K) : Keqb u v = true -> Keq u v.
Proof.
  unfold Keqb, Eeqb, Keq, Eeq. intros H.
  apply andb_prop in H as [H1 H2].
  apply andb_prop in H1 as [H1 H1']. apply andb_prop in H2 as [H2 H2'].
  repeat split; by apply Qeq_bool_eq.
Qed.

Lemma related_by_phase_sound (phase : K) (actual desired : list K) :
  Keqb (Kmul phase (Kconj phase)) K1 = true ->
  related_by_phase phase actual desired = true ->
  equal_up_to_global_phase actual desired.
Proof.
  intros Hunit Hrel. exists phase. split; [by apply Keqb_Keq|].
  revert desired Hrel.
  induction actual as [|a actual IH]; intros [|d desired] Hrel;
    try discriminate; constructor.
  - apply andb_prop in Hrel as [H _]. by apply Keqb_Keq.
  - apply andb_prop in Hrel as [_ H]. by apply IH.
Qed.

(** The scalars that stand for the numpy values are what they should be:
    a primitive cube root of unity, its conjugate, and a square root of
    three. *)
Lemma exact_scalars :
  Keq (Kpow exp_2j_pi_over_3 3) K1
  /\ ~ Keq exp_2j_pi_over_3 K1
  /\ Keq (Kmul exp_2j_pi_over_3 (Kconj exp_2j_pi_over_3)) K1
  /\ Keq (Kmul sqrt_3 sqrt_3) (K_of_Z 3)
  /\ Keq (Kconj sqrt_3) sqrt_3.
Proof.
  repeat split; try (apply Keqb_Keq; vm_compute; reflexivity).
  intros [[_ H] _]. vm_compute in H. discriminate H.
Qed.

(** The convention of the test: the list of occupied modes [0] is the
    integer 4 of the first case, [2] is the integer 1, and [1, 2] is 3. *)
Lemma basis_state_int_examples :
  basis_state_int 3 (OccupiedModes [0]%Z) = Ok 4%Z
  /\ basis_state_int 3 (OccupiedModes [2]%Z) = Ok 1%Z
  /\ basis_state_int 3 (OccupiedModes [1; 2]%Z) = Ok 3%Z.
Proof. repeat split. Qed.

(** The final states from the three basis states. *)
Lemma final_state_from_4 :
  equal_up_to_global_phase
    (ideal_final_state fourier_transform_matrix_3 3 4) correct_state_1.
Proof. apply (related_by_phase_sound K1); vm_compute; reflexivity. Qed.

Lemma final_state_from_3 :
  equal_up_to_global_phase
    (ideal_final_state fourier_transform_matrix_3 3 3) correct_state_2.
Proof.
  apply (related_by_phase_sound (Kconj exp_2j_pi_over_3)); vm_compute; reflexivity.
Qed.

Lemma final_state_from_1 :
  ~ equal_up_to_global_phase
      (ideal_final_state fourier_transform_matrix_3 3 1) correct_state_1.
Proof.
  intros (phase & _ & Hall).
  let v := eval vm_compute in (ideal_final_state fourier_transform_matrix_3 3 1) in
  change (ideal_final_state fourier_transform_matrix_3 3 1) with v in Hall.
  let v := eval vm_compute in correct_state_1 in
  change correct_state_1 with v in Hall.
  apply Forall2_cons_1 in Hall as [_ Hall].
  apply Forall2_cons_1 in Hall as [H1 Hall].
  apply Forall2_cons_1 in Hall as [_ Hall].
  apply Forall2_cons_1 in Hall as [_ Hall].
  apply Forall2_cons_1 in Hall as [H4 _].
  destruct phase as [[c0 c1] [c2 c3]].
  unfold Keq, Eeq, Kmul, Emul, Eadd, Escale, Ered in H1, H4.
  cbn [ea eb kx ky] in H1, H4.
  rewrite !Qred_correct in H1, H4.
  destruct H1 as [_ [H1 _]]. destruct H4 as [_ [_ H4]].
  lra.
Qed.

(** C6, amended.  The first case of the test starts from the integer 4,
    which is the set of occupied modes [0]; from it the final state equals
    [0,1,1,0,1,0,0,0]/sqrt(3) up to global phase, and from the set [1, 2]
    it equals the second literal vector up to global phase; both
    parametrised cases of the test pass. *)
Theorem fourier_transform_cases_hold :
  basis_state_int 3 (OccupiedModes [0]%Z) = basis_state_int 3 (BasisInt 4)
  /\ fourier_transform_claim [0]%Z [1; 2]%Z
  /\ Forall case_passes fourier_transform_cases.
Proof.
  split; [reflexivity|].
  assert (H4 : forall st, basis_state_int 3 st = Ok 4%Z ->
            case_passes (fourier_transform_matrix_3, st, correct_state_1)).
  { intros st Hst. eexists. split; [|exact final_state_from_4].
    unfold test_bogoliubov_transform_fourier_transform.
    change (default 0 (shape fourier_transform_matrix_3 !! 0)) with 3.
    by rewrite Hst. }
  assert (H3 : case_passes
            (fourier_transform_matrix_3, OccupiedModes [1; 2]%Z, correct_state_2)).
  { eexists. split; [|exact final_state_from_3]. reflexivity. }
  split; [split|].
  - by apply H4.
  - exact H3.
  - repeat constructor; [by apply H4 | exact H3].
Qed.

(** C6 as stated fails: the set of occupied modes [2] is the integer 1,
    not the 4 of the test; the final state from it is orthogonal to
    [0,1,1,0,1,0,0,0]/sqrt(3), and no phase relates the two. *)
Lemma fourier_transform_mode_2_counterexample :
  basis_state_int 3 (OccupiedModes [2]%Z) = Ok 1%Z
  /\ Keq (vdot (ideal_final_state fourier_transform_matrix_3 3 1) correct_state_1) K0
  /\ ~ fourier_transform_claim [2]%Z [1; 2]%Z.
Proof.
  split; [reflexivity|]. split.
  - apply Keqb_Keq. vm_compute. reflexivity.
  - intros [(P & Htest & HP) _].
    assert (Hbody : test_bogoliubov_transform_fourier_transform
                      (fourier_transform_matrix_3, OccupiedModes [2]%Z, correct_state_1)
                    = Ok (equal_up_to_global_phase
                            (ideal_final_state fourier_transform_matrix_3 3 1)
                            correct_state_1)) by reflexivity.
    rewrite Hbody in Htest. injection Htest as <-.
    by apply final_state_from_1.
Qed.

(** * More on the defaults of [VariationalAnsatz] *)

Lemma foldl_put_dom {V : Type} (items : list (string * V)) (acc : gmap string V) :
  dom (foldl dict_put acc items) = list_to_set items.*1 ∪ dom acc.
Proof.
  revert acc. induction items as [|[k v] items IH]; intros acc; cbn.
  - by rewrite (left_id_L ∅ (∪)).
  - rewrite IH. unfold dict_put. cbn. rewrite dom_insert_L.
    apply set_eq. intros k'. rewrite !elem_of_union. tauto.
Qed.

Lemma dict_dom {V : Type} (items : list (string * V)) :
  dom (dict items) = list_to_set items.*1.
Proof. unfold dict. by rewrite foldl_put_dom, dom_empty_L, (right_id_L ∅ (∪)). Qed.

Lemma dict_size_distinct {V : Type} (items : list (string * V)) :
  size (dict items) = length (remove_dups items.*1).
Proof.
  rewrite <- size_dom, dict_dom.
  rewrite <- (size_list_to_set (C := gset string) (remove_dups items.*1))
    by apply NoDup_remove_dups.
  f_equal. apply set_eq. intros k.
  rewrite !elem_of_list_to_set. by rewrite elem_of_remove_dups.
Qed.

Lemma zip_fst_take {V : Type} (names : list string) (values : list V) :
  (zip names values).*1 = take (length values) names.
Proof.
  revert values. induction names as [|n names IH]; intros [|v values]; cbn; try done.
  by rewrite IH.
Qed.

Lemma foldl_put_last {V : Type} (items : list (string * V)) (acc : gmap string V)
    (i : nat) (k : string) (v : V) :
  items !! i = Some (k, v) -> k ∉ (drop (S i) items).*1 ->
  foldl dict_put acc items !! k = Some v.
Proof.
  revert acc i. induction items as [|[k' v'] items IH]; intros acc i Hi Hlast; [done|].
  destruct i as [|i]; cbn in *.
  - injection Hi as -> ->. rewrite foldl_put_lookup_other by done.
    unfold dict_put. cbn. by rewrite lookup_insert_eq.
  - by apply (IH _ i).
Qed.

Lemma foldl_put_zip_replicate {V : Type} (names : list string) (acc : gmap string V)
    (n : nat) (v : V) (k : string) :
  length names <= n ->
  foldl dict_put acc (zip names (replicate n v)) !! k
  = if decide (k ∈ names) then Some v else acc !! k.
Proof.
  revert acc n. induction names as [|name names IH]; intros acc n Hn.
  - cbn. by rewrite decide_False by apply not_elem_of_nil.
  - destruct n as [|n]; [cbn in Hn; lia|]. cbn in Hn |- *.
    rewrite IH by lia. destruct (decide (k ∈ names)) as [Hin|Hnin].
    + rewrite decide_True; [done|]. by right.
    + unfold dict_put. cbn. destruct (decide (k = name)) as [->|Hne].
      * rewrite decide_True by left. by rewrite lookup_insert_eq.
      * rewrite decide_False; [by rewrite lookup_insert_ne|].
        intros [?|?]%elem_of_cons; done.
Qed.

(** What a successful constructor returns. *)
Lemma init_inv {A Circuit : Type} `{!VariationalAnsatz A Circuit}
    (self self' : Self A Circuit) :
  __init__ self = Ok self' ->
  exists c : Circuit,
    generate_circuit (assign_params self) = Ok c
    /\ self' = mkSelf (attrs self) (params (assign_params self)) (Some c).
Proof.
  unfold __init__, assign_circuit. cbn.
  destruct (generate_circuit (assign_params self)) as [c|e]; [|done].
  cbn. intros [= <-]. by exists c.
Qed.

(** X1.  On a constructed instance of any subclass,
    [default_initial_params] returns as many zeros as [param_names]
    returns distinct names: a repeated name counts once. *)
Theorem default_initial_params_distinct_names
    {A Circuit : Type} `{!VariationalAnsatz A Circuit} {R : Type} (zero : R)
    (self self' : Self A Circuit) :
  __init__ self = Ok self' ->
  default_initial_params zero self'
  = Ok (replicate (length (remove_dups (param_names (attrs self)))) zero).
Proof.
  intros (c & _ & ->)%init_inv.
  unfold default_initial_params. cbn. unfold numpy_zeros. do 2 f_equal.
  rewrite dict_size_distinct. rewrite <- list_fmap_compose. by rewrite list_fmap_id.
Qed.

(** [default_initial_params_distinct_names] for the names [a, a, b]. *)
Lemma default_initial_params_distinct_names_witness :
  __init__ (mkSelf repeated_names None None) = Ok (constructed repeated_names)
  /\ default_initial_params 0%Z (constructed repeated_names)
     = Ok (replicate
             (length (remove_dups
                (param_names (attrs (mkSelf (Circuit := list Symbol)
                                       repeated_names None None))))) 0%Z).
Proof.
  assert (Hinit : __init__ (mkSelf repeated_names None None)
                   = Ok (constructed repeated_names)) by (vm_compute; reflexivity).
  split; [exact Hinit|].
  exact (default_initial_params_distinct_names 0%Z _ _ Hinit).
Defined.

(** X2.  [param_resolver] binds exactly the names that stand at a
    position of [param_names] for which the array has a value: no other
    name is bound, whatever the two lengths are. *)
Theorem param_resolver_bound_names
    {A Circuit : Type} `{!VariationalAnsatz A Circuit} {R : Type}
    (self : Self A Circuit) (values : list R) :
  exists r : ParamResolver R,
    param_resolver self values = Ok r
    /\ forall name : string,
         is_Some (param_dict r !! name)
         <-> name ∈ take (length values) (param_names (attrs self)).
Proof.
  eexists. split; [reflexivity|]. intros name. cbn.
  rewrite <- elem_of_dom, dict_dom, elem_of_list_to_set. by rewrite zip_fst_take.
Qed.

(** X3.  When a name stands at several positions, [param_resolver] binds
    it to the value at the last of them that the array reaches. *)
Theorem param_resolver_last_position_wins
    {A Circuit : Type} `{!VariationalAnsatz A Circuit} {R : Type}
    (self : Self A Circuit) (values : list R) (i : nat) (name : string) (v : R) :
  param_names (attrs self) !! i = Some name ->
  values !! i = Some v ->
  name ∉ drop (S i) (take (length values) (param_names (attrs self))) ->
  exists r : ParamResolver R,
    param_resolver self values = Ok r /\ param_dict r !! name = Some v.
Proof.
  intros Hname Hv Hlast. eexists. split; [reflexivity|]. cbn. unfold dict.
  apply (foldl_put_last _ _ i).
  - rewrite lookup_zip_with. by rewrite Hname, Hv.
  - rewrite fmap_drop. by rewrite zip_fst_take.
Qed.

(** [param_resolver_last_position_wins] for the names [a, a, b] and the
    values [1, 2]: [a] is bound to [2]. *)
Lemma param_resolver_last_position_wins_witness :
  param_names (attrs (constructed repeated_names)) !! 1 = Some "a"%string
  /\ [1; 2]%Z !! 1 = Some 2%Z
  /\ ("a"%string ∉ drop 2 (take (length [1; 2]%Z)
                            (param_names (attrs (constructed repeated_names)))))
  /\ exists r : ParamResolver Z,
       param_resolver (constructed repeated_names) [1; 2]%Z = Ok r
       /\ param_dict r !! "a"%string = Some 2%Z.
Proof.
  assert (H1 : param_names (attrs (constructed repeated_names)) !! 1
               = Some "a"%string) by reflexivity.
  assert (H2 : [1; 2]%Z !! 1 = Some 2%Z) by reflexivity.
  assert (H3 : "a"%string ∉ drop 2 (take (length [1; 2]%Z)
                 (param_names (attrs (constructed repeated_names)))))
    by (vm_compute; apply not_elem_of_nil).
  split; [exact H1|]. split; [exact H2|]. split; [exact H3|].
  exact (param_resolver_last_position_wins
           (constructed repeated_names) [1; 2]%Z 1 "a"%string 2%Z H1 H2 H3).
Defined.

(** X4.  The two defaults compose: on a constructed instance with unique
    names, the resolver built from [default_initial_params()] binds every
    parameter name to zero and no other name. *)
Theorem param_resolver_of_default_initial_params
    {A Circuit : Type} `{!VariationalAnsatz A Circuit} {R : Type} (zero : R)
    (self self' : Self A Circuit) :
  NoDup (param_names (attrs self)) ->
  __init__ self = Ok self' ->
  exists (initial : list R) (r : ParamResolver R),
    default_initial_params zero self' = Ok initial
    /\ param_resolver self' initial = Ok r
    /\ forall name : string,
         param_dict r !! name
         = if decide (name ∈ param_names (attrs self)) then Some zero else None.
Proof.
  intros Hnd (c & _ & ->)%init_inv.
  eexists _, _. split; [reflexivity|]. split; [reflexivity|].
  intros name. cbn [param_dict attrs params assign_params]. unfold numpy_zeros.
  unfold dict at 1. rewrite foldl_put_zip_replicate.
  - by rewrite lookup_empty.
  - rewrite dict_size.
    + by rewrite length_fmap.
    + rewrite <- list_fmap_compose. by rewrite list_fmap_id.
Qed.

(** [param_resolver_of_default_initial_params] for three angles. *)
Lemma param_resolver_of_default_initial_params_witness :
  NoDup (param_names (attrs (mkSelf (Circuit := list Symbol) theta_names None None)))
  /\ __init__ (mkSelf theta_names None None) = Ok (constructed theta_names)
  /\ exists (initial : list Z) (r : ParamResolver Z),
       default_initial_params 0%Z (constructed theta_names) = Ok initial
       /\ param_resolver (constructed theta_names) initial = Ok r
       /\ forall name : string,
            param_dict r !! name
            = if decide (name ∈ param_names
                           (attrs (mkSelf (Circuit := list Symbol)
                                     theta_names None None)))
              then Some 0%Z else None.
Proof.
  assert (Hnd : NoDup (param_names
                  (attrs (mkSelf (Circuit := list Symbol) theta_names None None)))).
  { apply (bool_decide_unpack _). vm_compute. exact I. }
  assert (Hinit : __init__ (mkSelf theta_names None None)
                   = Ok (constructed theta_names)) by (vm_compute; reflexivity).
  split; [exact Hnd|]. split; [exact Hinit|].
  exact (param_resolver_of_default_initial_params 0%Z _ _ Hnd Hinit).
Defined.

(** With a repeated name the composition leaves a name unbound: the zero
    vector is too short for the list of names. *)
Lemma repeated_names_default_resolver :
  exists r : ParamResolver Z,
    param_resolver (constructed repeated_names) [0; 0]%Z = Ok r
    /\ param_dict r !! "b"%string = None.
Proof. eexists. split; [reflexivity|]. by vm_compute. Qed.

(** * The basis-state integer of the test *)

Lemma lshift_1 (k : Z) :
  lshift 1 k = if (k <? 0)%Z then Raise ValueError else Ok (2 ^ k)%Z.
Proof.
  unfold lshift. destruct (k <? 0)%Z eqn:Hk; [done|].
  cbn. f_equal. apply Z.shiftl_1_l.
Qed.

Lemma basis_fold_raise (n_qubits : nat) (modes : list Z) (e : exn) :
  foldl (fun total i =>
           s ← total; t ← lshift 1 (Z.of_nat n_qubits - 1 - i); mret (s + t)%Z)
        (Raise e) modes = Raise e.
Proof. induction modes as [|i modes IH]; [done|]. cbn. exact IH. Qed.

Lemma basis_fold_ok (n_qubits : nat) (modes : list Z) (a : Z) :
  foldl (fun total i =>
           s ← total; t ← lshift 1 (Z.of_nat n_qubits - 1 - i); mret (s + t)%Z)
        (Ok a) modes
  = if forallb (fun i => (i <? Z.of_nat n_qubits)%Z) modes
    then Ok (a + shift_total n_qubits modes)%Z else Raise ValueError.
Proof.
  revert a. induction modes as [|i modes IH]; intros a.
  - cbn. f_equal. lia.
  - cbn [foldl forallb shift_total foldr]. fold (shift_total n_qubits modes).
    cbn [mbind result_bind]. rewrite lshift_1.
    destruct (i <? Z.of_nat n_qubits)%Z eqn:Hi.
    + apply Z.ltb_lt in Hi.
      destruct (Z.of_nat n_qubits - 1 - i <? 0)%Z eqn:Hk; [apply Z.ltb_lt in Hk; lia|].
      cbn. rewrite IH. destruct (forallb _ modes); [|done]. f_equal. lia.
    + apply Z.ltb_ge in Hi.
      destruct (Z.of_nat n_qubits - 1 - i <? 0)%Z eqn:Hk; [|apply Z.ltb_ge in Hk; lia].
      cbn. apply basis_fold_raise.
Qed.

Lemma basis_state_int_closed (n_qubits : nat) (modes : list Z) :
  basis_state_int n_qubits (OccupiedModes modes)
  = if forallb (fun i => (i <? Z.of_nat n_qubits)%Z) modes
    then Ok (shift_total n_qubits modes) else Raise ValueError.
Proof.
  cbn. unfold mret, result_ret. rewrite basis_fold_ok. by destruct (forallb _ _).
Qed.

Lemma forallb_below (n_qubits : nat) (modes : list Z) :
  Forall (fun i => (i < Z.of_nat n_qubits)%Z) modes ->
  forallb (fun i => (i <? Z.of_nat n_qubits)%Z) modes = true.
Proof.
  intros Hall. apply forallb_forall. intros i Hi%list_elem_of_In.
  rewrite Forall_forall in Hall. apply Z.ltb_lt. by apply Hall.
Qed.

Lemma shift_total_nonneg (n : nat) (modes : list Z) : (0 <= shift_total n modes)%Z.
Proof.
  induction modes as [|i modes IH]; [done|].
  cbn [shift_total foldr]. fold (shift_total n modes).
  pose proof (Z.pow_nonneg 2 (Z.of_nat n - 1 - i)). lia.
Qed.

Lemma shift_total_elem (n : nat) (modes : list Z) (i : Z) :
  i ∈ modes -> (2 ^ (Z.of_nat n - 1 - i) <= shift_total n modes)%Z.
Proof.
  induction modes as [|j modes IH]; intros Hin; [by apply elem_of_nil in Hin|].
  cbn [shift_total foldr]. fold (shift_total n modes).
  apply elem_of_cons in Hin as [->|Hin].
  - pose proof (shift_total_nonneg n modes). lia.
  - specialize (IH Hin). pose proof (Z.pow_nonneg 2 (Z.of_nat n - 1 - j)). lia.
Qed.

Lemma shift_total_bits (n : nat) (modes : list Z) :
  NoDup modes ->
  Forall (fun i => (0 <= i < Z.of_nat n)%Z) modes ->
  forall p : Z, (0 <= p)%Z ->
    Z.testbit (shift_total n modes) p
    = bool_decide ((Z.of_nat n - 1 - p)%Z ∈ modes).
Proof.
  induction modes as [|i modes IH]; intros Hnd Hall p Hp.
  - cbn. rewrite Z.bits_0. symmetry. apply bool_decide_eq_false. apply not_elem_of_nil.
  - apply NoDup_cons in Hnd as [Hi Hnd]. apply Forall_cons in Hall as [Hir Hall].
    cbn [shift_total foldr]. fold (shift_total n modes).
    set (q := (Z.of_nat n - 1 - i)%Z).
    assert (Hq : (0 <= q)%Z) by (unfold q; lia).
    assert (Hbit : Z.testbit (shift_total n modes) q = false).
    { rewrite IH by done. apply bool_decide_eq_false.
      replace (Z.of_nat n - 1 - q)%Z with i by (unfold q; lia). done. }
    assert (Hland : Z.land (2 ^ q) (shift_total n modes) = 0%Z).
    { apply Z.bits_inj'. intros k Hk. rewrite Z.land_spec, Z.bits_0.
      destruct (decide (k = q)) as [->|Hne].
      - rewrite Hbit. apply andb_false_r.
      - rewrite Z.pow2_bits_false by done. done. }
    rewrite Z.add_nocarry_lxor by done.
    rewrite Z.lxor_spec, IH by done.
    destruct (decide (p = q)) as [->|Hne].
    + rewrite Z.pow2_bits_true by done.
      replace (Z.of_nat n - 1 - q)%Z with i by (unfold q; lia).
      rewrite (bool_decide_eq_false_2 (i ∈ modes)) by done.
      rewrite bool_decide_eq_true_2 by left. done.
    + rewrite Z.pow2_bits_false by done. cbn.
      apply bool_decide_ext. rewrite elem_of_cons.
      split; [by right|]. intros [Heq|?]; [|done]. unfold q in Hne. lia.
Qed.

Lemma shift_total_permutation (n : nat) (modes modes' : list Z) :
  modes ≡ₚ modes' -> shift_total n modes = shift_total n modes'.
Proof.
  induction 1 as [|i l l' _ IH|i j l|l l' l'' _ IH1 _ IH2]; cbn [shift_total foldr].
  - done.
  - fold (shift_total n l) (shift_total n l'). by rewrite IH.
  - lia.
  - by rewrite IH1.
Qed.

Lemma forallb_permutation {A : Type} (f : A -> bool) (l l' : list A) :
  l ≡ₚ l' -> forallb f l = forallb f l'.
Proof.
  induction 1 as [|i l l' _ IH|i j l|l l' l'' _ IH1 _ IH2]; cbn.
  - done.
  - by rewrite IH.
  - by destruct (f i), (f j).
  - by rewrite IH1.
Qed.

(** X5.  The conversion of a list of occupied modes raises [ValueError]
    exactly when some index is [n_qubits] or more (the shift count is
    negative); otherwise it returns the sum of [2 ^ (n_qubits - 1 - i)]
    over the list. *)
Theorem basis_state_int_raises_or_sums (n_qubits : nat) (modes : list Z) :
  (Exists (fun i => (Z.of_nat n_qubits <= i)%Z) modes
   /\ basis_state_int n_qubits (OccupiedModes modes) = Raise ValueError)
  \/ (Forall (fun i => (i < Z.of_nat n_qubits)%Z) modes
      /\ basis_state_int n_qubits (OccupiedModes modes)
         = Ok (shift_total n_qubits modes)).
Proof.
  rewrite basis_state_int_closed.
  destruct (Forall_Exists_dec (fun i => (i < Z.of_nat n_qubits)%Z)
              (fun i => (Z.of_nat n_qubits <= i)%Z)
              (fun i => Z_lt_le_dec i (Z.of_nat n_qubits)) modes) as [Hall|Hex].
  - right. split; [exact Hall|]. by rewrite forallb_below.
  - left. split; [exact Hex|].
    destruct (forallb (fun i => (i <? Z.of_nat n_qubits)%Z) modes) eqn:Hf; [|done].
    apply Exists_exists in Hex as (i & Hi%list_elem_of_In & Hge).
    rewrite forallb_forall in Hf. apply Hf, Z.ltb_lt in Hi. lia.
Qed.

(** X6.  For distinct mode indices inside [0, n_qubits) the conversion
    returns a basis state of [n_qubits] qubits in which bit
    [n_qubits - 1 - i] is set exactly when [i] is listed: mode 0 is the
    most significant bit. *)
Theorem basis_state_int_bits (n_qubits : nat) (modes : list Z) :
  NoDup modes ->
  Forall (fun i => (0 <= i < Z.of_nat n_qubits)%Z) modes ->
  exists state : Z,
    basis_state_int n_qubits (OccupiedModes modes) = Ok state
    /\ (0 <= state < 2 ^ Z.of_nat n_qubits)%Z
    /\ forall i : Z, (0 <= i < Z.of_nat n_qubits)%Z ->
         Z.testbit state (Z.of_nat n_qubits - 1 - i) = bool_decide (i ∈ modes).
Proof.
  intros Hnd Hall. exists (shift_total n_qubits modes).
  assert (Hbits := shift_total_bits n_qubits modes Hnd Hall).
  split; [|split].
  - rewrite basis_state_int_closed, forallb_below; [done|].
    eapply Forall_impl; [exact Hall|]. cbn. lia.
  - split; [apply shift_total_nonneg|].
    destruct (decide (shift_total n_qubits modes = 0)%Z) as [->|Hne].
    { apply Z.pow_pos_nonneg; lia. }
    pose proof (shift_total_nonneg n_qubits modes).
    apply Z.log2_lt_pow2; [lia|].
    destruct (Z.lt_ge_cases (Z.log2 (shift_total n_qubits modes)) (Z.of_nat n_qubits))
      as [?|Hge]; [done|].
    pose proof (Z.bit_log2 (shift_total n_qubits modes) ltac:(lia)) as Hlog.
    rewrite Hbits in Hlog by apply Z.log2_nonneg.
    apply bool_decide_eq_true in Hlog.
    rewrite Forall_forall in Hall. apply Hall in Hlog. lia.
  - intros i Hi. rewrite Hbits by lia. apply bool_decide_ext.
    by replace (Z.of_nat n_qubits - 1 - (Z.of_nat n_qubits - 1 - i))%Z with i by lia.
Qed.

(** [basis_state_int_bits] for the second case of the Fourier test. *)
Lemma basis_state_int_bits_witness :
  NoDup [1; 2]%Z
  /\ Forall (fun i => (0 <= i < Z.of_nat 3)%Z) [1; 2]%Z
  /\ exists state : Z,
       basis_state_int 3 (OccupiedModes [1; 2]%Z) = Ok state
       /\ (0 <= state < 2 ^ Z.of_nat 3)%Z
       /\ forall i : Z, (0 <= i < Z.of_nat 3)%Z ->
            Z.testbit state (Z.of_nat 3 - 1 - i) = bool_decide (i ∈ [1; 2]%Z).
Proof.
  assert (Hnd : NoDup [1; 2]%Z) by (apply (bool_decide_unpack _); vm_compute; exact I).
  assert (Hall : Forall (fun i => (0 <= i < Z.of_nat 3)%Z) [1; 2]%Z)
    by (repeat constructor; lia).
  split; [exact Hnd|]. split; [exact Hall|].
  exact (basis_state_int_bits 3 [1; 2]%Z Hnd Hall).
Defined.

(** X7.  The order in which the occupied modes are listed does not
    matter, neither for the integer nor for the error. *)
Theorem basis_state_int_permutation (n_qubits : nat) (modes modes' : list Z) :
  modes ≡ₚ modes' ->
  basis_state_int n_qubits (OccupiedModes modes)
  = basis_state_int n_qubits (OccupiedModes modes').
Proof.
  intros Hperm. rewrite !basis_state_int_closed.
  by rewrite (forallb_permutation _ _ _ Hperm), (shift_total_permutation _ _ _ Hperm).
Qed.

(** [basis_state_int_permutation] for [1, 2] and [2, 1]. *)
Lemma basis_state_int_permutation_witness :
  [1; 2]%Z ≡ₚ [2; 1]%Z
  /\ basis_state_int 3 (OccupiedModes [1; 2]%Z)
     = basis_state_int 3 (OccupiedModes [2; 1]%Z).
Proof.
  assert (Hperm : [1; 2]%Z ≡ₚ [2; 1]%Z) by apply perm_swap.
  split; [exact Hperm|].
  exact (basis_state_int_permutation 3 _ _ Hperm).
Defined.

(** X8.  A negative mode index is not rejected and does not count from
    the end: when no index is [n_qubits] or more, the conversion returns
    an integer of at least [2 ^ n_qubits], which is no basis state of
    [n_qubits] qubits. *)
Theorem basis_state_int_negative_index (n_qubits : nat) (modes : list Z) (i : Z) :
  i ∈ modes -> (i < 0)%Z ->
  Forall (fun j => (j < Z.of_nat n_qubits)%Z) modes ->
  exists state : Z,
    basis_state_int n_qubits (OccupiedModes modes) = Ok state
    /\ (2 ^ Z.of_nat n_qubits <= state)%Z.
Proof.
  intros Hin Hneg Hall. exists (shift_total n_qubits modes). split.
  - by rewrite basis_state_int_closed, forallb_below.
  - etrans; [|by apply shift_total_elem].
    apply Z.pow_le_mono_r; lia.
Qed.

(** [basis_state_int_negative_index] for three qubits and the list
    [2, -1]. *)
Lemma basis_state_int_negative_index_witness :
  (-1)%Z ∈ [2; -1]%Z
  /\ (-1 < 0)%Z
  /\ Forall (fun j => (j < Z.of_nat 3)%Z) [2; -1]%Z
  /\ exists state : Z,
       basis_state_int 3 (OccupiedModes [2; -1]%Z) = Ok state
       /\ (2 ^ Z.of_nat 3 <= state)%Z.
Proof.
  assert (Hin : (-1)%Z ∈ [2; -1]%Z) by (apply (bool_decide_unpack _); vm_compute; exact I).
  assert (Hneg : (-1 < 0)%Z) by lia.
  assert (Hall : Forall (fun j => (j < Z.of_nat 3)%Z) [2; -1]%Z)
    by (repeat constructor; lia).
  split; [exact Hin|]. split; [exact Hneg|]. split; [exact Hall|].
  exact (basis_state_int_negative_index 3 [2; -1]%Z (-1)%Z Hin Hneg Hall).
Defined.

(** * Two-dimensional arrays *)

Section ArrayFacts.
Context {T : Type}.

Lemma row_comprehension (c s : nat) (h : nat -> option T) :
  (forall j, j < c -> is_Some (h (s + j))) ->
  length (j ← seq s c; option_list (h j)) = c
  /\ forall j, j < c -> (j ← seq s c; option_list (h j)) !! j = h (s + j).
Proof.
  revert s. induction c as [|c IH]; intros s Hh; [split; [done|lia]|].
  cbn [seq]. rewrite bind_cons.
  destruct (Hh 0 ltac:(lia)) as [x Hx]. rewrite Nat.add_0_r in Hx. rewrite Hx.
  destruct (IH (S s)) as [Hlen Hlook].
  { intros j Hj. replace (S s + j) with (s + S j) by lia. apply Hh. lia. }
  cbn. split; [by rewrite Hlen|].
  intros [|j] Hj; cbn.
  - by rewrite Nat.add_0_r.
  - rewrite Hlook by lia. f_equal. lia.
Qed.

Lemma comprehension2d (r c s : nat) (g : nat -> nat -> option T) :
  (forall i j, s <= i < s + r -> j < c -> is_Some (g i j)) ->
  length (i ← seq s r; j ← seq 0 c; option_list (g i j)) = r * c
  /\ forall i j, i < r -> j < c ->
       (i ← seq s r; j ← seq 0 c; option_list (g i j)) !! (i * c + j)
       = g (s + i) j.
Proof.
  revert s. induction r as [|r IH]; intros s Hg; [split; [done|lia]|].
  cbn [seq]. rewrite bind_cons.
  destruct (row_comprehension c 0 (g s)) as [Hrlen Hrow].
  { intros j Hj. apply Hg; lia. }
  destruct (IH (S s)) as [Hlen Hlook].
  { intros i j Hi Hj. apply Hg; lia. }
  split.
  - rewrite length_app, Hrlen, Hlen. lia.
  - intros i j Hi Hj. destruct i as [|i].
    + rewrite lookup_app_l by lia. rewrite Hrow by lia. by rewrite Nat.add_0_r.
    + rewrite lookup_app_r by lia. rewrite Hrlen.
      replace (S i * c + j - c) with (i * c + j) by lia.
      rewrite Hlook by lia. f_equal. lia.
Qed.

Lemma tabulate_spec (r c : nat) (g : nat -> nat -> option T) :
  (forall i j, i < r -> j < c -> is_Some (g i j)) ->
  well_formed (tabulate2d r c g)
  /\ forall i j, i < r -> j < c -> cell (tabulate2d r c g) i j = g i j.
Proof.
  intros Hg. destruct (comprehension2d r c 0 g) as [Hlen Hlook].
  { intros i j Hi Hj. apply Hg; lia. }
  split; [exact Hlen|]. intros i j Hi Hj. unfold cell. cbn.
  rewrite decide_True by done. by rewrite Hlook.
Qed.

Lemma cell_is_Some (m : array2d T) (i j : nat) :
  well_formed m -> i < n_rows m -> j < n_cols m -> is_Some (cell m i j).
Proof.
  intros Hwf Hi Hj. unfold cell. rewrite decide_True by done.
  apply lookup_lt_is_Some. rewrite Hwf. nia.
Qed.

Lemma array2d_eq (a b : array2d T) :
  well_formed a -> well_formed b ->
  n_rows a = n_rows b -> n_cols a = n_cols b ->
  (forall i j, i < n_rows a -> j < n_cols a -> cell a i j = cell b i j) ->
  a = b.
Proof.
  destruct a as [r c xs], b as [r' c' ys]. unfold well_formed, cell. cbn.
  intros Ha Hb <- <- Hcells. f_equal. apply list_eq. intros p.
  destruct (decide (p < r * c)) as [Hp|Hp].
  - assert (Hc : 0 < c) by nia.
    specialize (Hcells (p / c) (p mod c)).
    rewrite !decide_True in Hcells by (apply Nat.mod_upper_bound; lia).
    replace (p / c * c + p mod c) with p in Hcells
      by (rewrite (Nat.div_mod_eq p c) at 1; lia).
    apply Hcells.
    + apply Nat.Div0.div_lt_upper_bound. lia.
    + apply Nat.mod_upper_bound. lia.
  - rewrite !lookup_ge_None_2 by lia. done.
Qed.
End ArrayFacts.

Section OpsFacts.
Context {T : Type} (conj : T -> T).
Implicit Types m a b : array2d T.

Lemma transpose_spec m :
  well_formed m ->
  well_formed (transpose m)
  /\ forall i j, i < n_cols m -> j < n_rows m -> cell (transpose m) i j = cell m j i.
Proof.
  intros Hwf. apply tabulate_spec. intros i j Hi Hj. by apply cell_is_Some.
Qed.

Lemma conj_array_spec m :
  well_formed m ->
  well_formed (conj_array conj m)
  /\ forall i j, cell (conj_array conj m) i j = conj <$> cell m i j.
Proof.
  intros Hwf. split.
  - unfold well_formed. cbn. by rewrite length_fmap.
  - intros i j. unfold cell. cbn. case_decide; [|done]. apply list_lookup_fmap.
Qed.

Lemma columns_before_spec n m :
  well_formed m ->
  well_formed (columns_before n m)
  /\ forall i j, i < n_rows m -> j < min n (n_cols m) ->
       cell (columns_before n m) i j = cell m i j.
Proof.
  intros Hwf. apply tabulate_spec. intros i j Hi Hj. apply cell_is_Some; [done|lia..].
Qed.

Lemma columns_from_spec n m :
  well_formed m ->
  well_formed (columns_from n m)
  /\ forall i j, i < n_rows m -> j < n_cols m - n ->
       cell (columns_from n m) i j = cell m i (n + j).
Proof.
  intros Hwf. apply tabulate_spec. intros i j Hi Hj. apply cell_is_Some; [done|lia..].
Qed.

Lemma block_row_spec a b :
  well_formed a -> well_formed b -> n_rows a = n_rows b ->
  exists d, block_row a b = Ok d
    /\ well_formed d /\ n_rows d = n_rows a /\ n_cols d = n_cols a + n_cols b
    /\ (forall i j, i < n_rows a -> j < n_cols a -> cell d i j = cell a i j)
    /\ (forall i j, i < n_rows a -> j < n_cols b ->
          cell d i (n_cols a + j) = cell b i j).
Proof.
  intros Ha Hb Hrows. unfold block_row. rewrite decide_True by done.
  eexists. split; [reflexivity|].
  match goal with |- well_formed (tabulate2d ?r ?c ?g) /\ _ =>
    destruct (tabulate_spec r c g) as [Hwf Hcell] end.
  { intros i j Hi Hj. case_decide.
    - by apply cell_is_Some.
    - apply cell_is_Some; [done|lia..]. }
  split; [exact Hwf|]. split; [done|]. split; [done|]. split.
  - intros i j Hi Hj. rewrite Hcell by lia. by rewrite decide_True.
  - intros i j Hi Hj. rewrite Hcell by lia. rewrite decide_False by lia.
    f_equal. lia.
Qed.

Lemma dagger_square_spec (n_qubits : nat) m :
  well_formed m -> n_rows m = n_qubits -> n_cols m = n_qubits ->
  exists d,
    daggered_transformation_matrix conj n_qubits m = Ok d
    /\ well_formed d /\ n_rows d = n_qubits /\ n_cols d = n_qubits
    /\ forall j k, j < n_qubits -> k < n_qubits -> cell d j k = conj <$> cell m k j.
Proof.
  intros Hwf Hr Hc. unfold daggered_transformation_matrix.
  rewrite decide_True by done. eexists. split; [reflexivity|].
  destruct (transpose_spec m Hwf) as [HwfT HcellT].
  destruct (conj_array_spec (transpose m) HwfT) as [HwfC HcellC].
  split; [exact HwfC|]. split; [by cbn|]. split; [by cbn|].
  intros j k Hj Hk. rewrite HcellC, HcellT by lia. done.
Qed.

Lemma dagger_wide_spec (n_qubits : nat) m :
  well_formed m -> n_rows m = n_qubits -> n_cols m = 2 * n_qubits ->
  exists d,
    daggered_transformation_matrix conj n_qubits m = Ok d
    /\ well_formed d /\ n_rows d = n_qubits /\ n_cols d = 2 * n_qubits
    /\ forall j k, j < n_qubits -> k < n_qubits ->
         cell d j k = conj <$> cell m k j
         /\ cell d j (n_qubits + k) = cell m k (n_qubits + j).
Proof.
  intros Hwf Hr Hc.
  destruct (decide (n_qubits = 0)) as [->|Hn].
  { destruct (dagger_square_spec 0 m Hwf Hr ltac:(lia)) as (d & Hd & Hwfd & Hrd & Hcd & _).
    exists d. repeat split; try done; lia. }
  unfold daggered_transformation_matrix. rewrite decide_False by lia. cbn zeta.
  destruct (columns_before_spec n_qubits m Hwf) as [HwfL HcellL].
  destruct (columns_from_spec n_qubits m Hwf) as [HwfR HcellR].
  destruct (transpose_spec _ HwfL) as [HwfLT HcellLT].
  destruct (transpose_spec _ HwfR) as [HwfRT HcellRT].
  destruct (conj_array_spec _ HwfLT) as [HwfLC HcellLC].
  destruct (block_row_spec _ _ HwfLC HwfRT) as (d & Hd & Hwfd & Hrd & Hcd & Hl & Hright).
  { cbn. lia. }
  cbn in Hrd, Hcd, Hl, Hright, HcellLT, HcellRT.
  exists d. split; [exact Hd|]. split; [exact Hwfd|].
  split; [lia|]. split; [lia|].
  intros j k Hj Hk. split.
  - rewrite Hl by lia. rewrite HcellLC, HcellLT by lia. by rewrite HcellL by lia.
  - replace n_qubits with (n_rows m) at 1 by done.
    replace (n_rows m) with (n_cols (conj_array conj (transpose (columns_before n_qubits m)))) at 1
      by (cbn; lia).
    rewrite Hright by lia. rewrite HcellRT by lia. by rewrite HcellR by lia.
Qed.

(** X10.  For a matrix of shape [(n, 2n)] the daggered matrix has the
    same shape; its first [n] columns are the conjugate transpose of the
    left block of the matrix and its last [n] columns are the transpose,
    not conjugated, of the right block. *)
Theorem dagger_blocks (n_qubits : nat) m :
  well_formed m -> n_rows m = n_qubits -> n_cols m = 2 * n_qubits ->
  exists d,
    daggered_transformation_matrix conj n_qubits m = Ok d
    /\ n_rows d = n_qubits /\ n_cols d = 2 * n_qubits
    /\ columns_before n_qubits d
       = conj_array conj (transpose (columns_before n_qubits m))
    /\ columns_from n_qubits d = transpose (columns_from n_qubits m).
Proof.
  intros Hwf Hr Hc.
  destruct (dagger_wide_spec n_qubits m Hwf Hr Hc) as (d & Hd & Hwfd & Hrd & Hcd & Hcell).
  exists d. split; [exact Hd|]. split; [done|]. split; [done|].
  destruct (columns_before_spec n_qubits m Hwf) as [HwfL HcellL].
  destruct (columns_from_spec n_qubits m Hwf) as [HwfR HcellR].
  destruct (transpose_spec _ HwfL) as [HwfLT HcellLT].
  destruct (transpose_spec _ HwfR) as [HwfRT HcellRT].
  destruct (conj_array_spec _ HwfLT) as [HwfLC HcellLC].
  destruct (columns_before_spec n_qubits d Hwfd) as [HwfdL HcelldL].
  destruct (columns_from_spec n_qubits d Hwfd) as [HwfdR HcelldR].
  cbn in HcellLT, HcellRT.
  split.
  - apply array2d_eq; try done; cbn; try lia.
    intros j k Hj Hk. rewrite HcelldL by lia. rewrite HcellLC, HcellLT by lia.
    rewrite HcellL by lia. apply Hcell; lia.
  - apply array2d_eq; try done; cbn; try lia.
    intros j k Hj Hk. rewrite HcelldR by lia. rewrite HcellRT by lia.
    rewrite HcellR by lia. apply Hcell; lia.
Qed.

(** X11.  For a matrix of shape [(n, n)] or [(n, 2n)], and a conjugation
    that undoes itself, building the daggered matrix twice gives the
    matrix back. *)
Theorem dagger_involution (n_qubits : nat) m :
  (forall z : T, conj (conj z) = z) ->
  well_formed m -> n_rows m = n_qubits ->
  n_cols m = n_qubits \/ n_cols m = 2 * n_qubits ->
  exists d,
    daggered_transformation_matrix conj n_qubits m = Ok d
    /\ n_rows d = n_rows m /\ n_cols d = n_cols m
    /\ daggered_transformation_matrix conj n_qubits d = Ok m.
Proof.
  intros Hconj Hwf Hr [Hc|Hc].
  - destruct (dagger_square_spec n_qubits m Hwf Hr Hc) as (d & Hd & Hwfd & Hrd & Hcd & Hcell).
    destruct (dagger_square_spec n_qubits d Hwfd Hrd Hcd)
      as (d' & Hd' & Hwfd' & Hrd' & Hcd' & Hcell').
    exists d. split; [exact Hd|]. split; [lia|]. split; [lia|].
    rewrite Hd'. f_equal. apply array2d_eq; try done; try lia.
    intros j k Hj Hk. rewrite Hcell', Hcell by lia.
    destruct (cell m j k); cbn; by rewrite ?Hconj.
  - destruct (dagger_wide_spec n_qubits m Hwf Hr Hc) as (d & Hd & Hwfd & Hrd & Hcd & Hcell).
    destruct (dagger_wide_spec n_qubits d Hwfd Hrd Hcd)
      as (d' & Hd' & Hwfd' & Hrd' & Hcd' & Hcell').
    exists d. split; [exact Hd|]. split; [lia|]. split; [lia|].
    rewrite Hd'. f_equal. apply array2d_eq; try done; try lia.
    intros j k Hj Hk. destruct (decide (k < n_qubits)) as [Hlt|Hge].
    + destruct (Hcell' j k ltac:(lia) Hlt) as [-> _].
      destruct (Hcell k j Hlt ltac:(lia)) as [-> _].
      destruct (cell m j k); cbn; by rewrite ?Hconj.
    + replace k with (n_qubits + (k - n_qubits)) by lia.
      destruct (Hcell' j (k - n_qubits) ltac:(lia) ltac:(lia)) as [_ ->].
      by destruct (Hcell (k - n_qubits) j ltac:(lia) ltac:(lia)) as [_ ->].
Qed.

(** X12.  The construction raises [ValueError] (from [numpy.block])
    exactly when the shape is not [(n, n)] and the number of columns is
    neither [2n] nor zero; the number of rows plays no role outside the
    square case. *)
Theorem dagger_raises_iff (n_qubits : nat) m :
  daggered_transformation_matrix conj n_qubits m = Raise ValueError
  <-> ~ (n_rows m = n_qubits /\ n_cols m = n_qubits)
      /\ n_cols m <> 2 * n_qubits /\ n_cols m <> 0.
Proof.
  unfold daggered_transformation_matrix, block_row. cbn.
  destruct (decide (n_rows m = n_qubits /\ n_cols m = n_qubits)) as [Hsq|Hsq].
  - split; [done|]. intros [? _]. done.
  - destruct (decide (n_qubits `min` n_cols m = n_cols m - n_qubits)) as [Heq|Hne].
    + split; [done|]. intros (_ & ? & ?). lia.
    + split; [|done]. intros _. split; [done|]. lia.
Qed.
End OpsFacts.


Lemma gauss_conj_involutive (z : Z * Z) : gauss_conj (gauss_conj z) = z.
Proof. destruct z as [a b]. unfold gauss_conj. cbn. f_equal. lia. Qed.

(** [dagger_blocks] on the matrix of shape [(2, 4)]. *)
Lemma dagger_blocks_witness :
  well_formed wide_example /\ n_rows wide_example = 2
  /\ n_cols wide_example = 2 * 2
  /\ exists d,
       daggered_transformation_matrix gauss_conj 2 wide_example = Ok d
       /\ n_rows d = 2 /\ n_cols d = 2 * 2
       /\ columns_before 2 d
          = conj_array gauss_conj (transpose (columns_before 2 wide_example))
       /\ columns_from 2 d = transpose (columns_from 2 wide_example).
Proof.
  assert (Hwf : well_formed wide_example) by reflexivity.
  assert (Hr : n_rows wide_example = 2) by reflexivity.
  assert (Hc : n_cols wide_example = 2 * 2) by reflexivity.
  split; [exact Hwf|]. split; [exact Hr|]. split; [exact Hc|].
  exact (dagger_blocks gauss_conj 2 wide_example Hwf Hr Hc).
Defined.

(** [dagger_involution] on the matrix of shape [(2, 4)]. *)
Lemma dagger_involution_witness :
  (forall z : Z * Z, gauss_conj (gauss_conj z) = z)
  /\ well_formed wide_example /\ n_rows wide_example = 2
  /\ (n_cols wide_example = 2 \/ n_cols wide_example = 2 * 2)
  /\ exists d,
       daggered_transformation_matrix gauss_conj 2 wide_example = Ok d
       /\ n_rows d = n_rows wide_example /\ n_cols d = n_cols wide_example
       /\ daggered_transformation_matrix gauss_conj 2 d = Ok wide_example.
Proof.
  assert (Hwf : well_formed wide_example) by reflexivity.
  assert (Hr : n_rows wide_example = 2) by reflexivity.
  assert (Hc : n_cols wide_example = 2 \/ n_cols wide_example = 2 * 2)
    by (right; reflexivity).
  split; [exact gauss_conj_involutive|]. split; [exact Hwf|].
  split; [exact Hr|]. split; [exact Hc|].
  exact (dagger_involution gauss_conj 2 wide_example gauss_conj_involutive Hwf Hr Hc).
Defined.

(** The daggered matrix of the example, computed. *)
Lemma dagger_wide_example :
  daggered_transformation_matrix gauss_conj 2 wide_example
  = Ok (mkArray2d 2 4 [(1, -2); (-7, -8); (5, 0); (2, -3);
                       (3, 4); (9, -1); (0, 6); (4, 5)]%Z).
Proof. reflexivity. Qed.

(** * The Fourier matrix of the test *)

(** X9.  [fourier_transform_matrix(n)] has shape [(n, n)] and [n * n]
    elements; the element at [(j, k)] is [root ** (j * k) / sqrt(n)], so
    the matrix is symmetric. *)
Theorem fourier_transform_matrix_symmetric
    (root_of_unity sqrt_n_modes : K) (n_modes j k : nat) :
  j < n_modes -> k < n_modes ->
  let m := fourier_transform_matrix root_of_unity sqrt_n_modes n_modes in
  shape m = [n_modes; n_modes]
  /\ length (data m) = n_modes * n_modes
  /\ data m !! (j * n_modes + k)
     = Some (Kdiv (Kpow root_of_unity (j * k)) sqrt_n_modes)
  /\ data m !! (j * n_modes + k) = data m !! (k * n_modes + j).
Proof.
  intros Hj Hk m.
  destruct (comprehension2d n_modes n_modes 0
              (fun j k => Some (Kdiv (Kpow root_of_unity (j * k)) sqrt_n_modes)))
    as [Hlen Hlook]; [by eauto|].
  split; [done|]. split; [exact Hlen|].
  assert (Hcell : forall a b, a < n_modes -> b < n_modes ->
            data m !! (a * n_modes + b)
            = Some (Kdiv (Kpow root_of_unity (a * b)) sqrt_n_modes)).
  { intros a b Ha Hb. exact (Hlook a b Ha Hb). }
  split; [by apply Hcell|].
  rewrite !Hcell by done. by rewrite (Nat.mul_comm j k).
Qed.

(** [fourier_transform_matrix_symmetric] at position [(1, 2)] of the
    three-mode matrix. *)
Lemma fourier_transform_matrix_symmetric_witness :
  1 < 3 /\ 2 < 3
  /\ (let m := fourier_transform_matrix exp_2j_pi_over_3 sqrt_3 3 in
      shape m = [3; 3]
      /\ length (data m) = 3 * 3
      /\ data m !! (1 * 3 + 2)
         = Some (Kdiv (Kpow exp_2j_pi_over_3 (1 * 2)) sqrt_3)
      /\ data m !! (1 * 3 + 2) = data m !! (2 * 3 + 1)).
Proof.
  assert (H1 : 1 < 3) by lia. assert (H2 : 2 < 3) by lia.
  split; [exact H1|]. split; [exact H2|].
  exact (fourier_transform_matrix_symmetric exp_2j_pi_over_3 sqrt_3 3 1 2 H1 H2).
Defined.
